(** * The Windows [sys_alloc_aligned] stub of kaspa-txscript

    Source: crypto/txscript/src/zk_precompiles/risc0/windows_stub/sys_alloc.c

    The translation unit declares one external function of the MSVC runtime,
    [_aligned_malloc], and defines one exported function,
    [sys_alloc_aligned], whose body is the single statement
    [return _aligned_malloc(size, alignment);].

    The stub is embedded as a computation in a small monad of C effects: the
    call to the external function is the one effect the stub performs; the
    other effects of the monad (stores to program variables, taking and
    releasing locks) are there so that their absence can be stated.  The
    MSVC runtime is not part of the repository: it enters as a [Host], and
    what its documentation promises enters as explicit hypotheses. *)

From Stdlib Require Import ZArith List Lia Bool.
Import ListNotations.
Open Scope Z_scope.

(** ** Machine types of the target (x86_64-pc-windows-msvc) *)

Module Machine.

(** [size_t]: an unsigned 64-bit integer, carried as a [Z]. *)
Definition size_t : Type := Z.
Definition SIZE_MAX : Z := 2 ^ 64 - 1.
Definition is_size_t (n : Z) : bool := (0 <=? n) && (n <=? SIZE_MAX).

(** [void*]: an address; the null pointer is address 0. *)
Definition ptr : Type := Z.
Definition NULL : ptr := 0.

(** Size of a pointer on the target, in bytes. *)
Definition pointer_size : Z := 8.

(** [a] is a power of two. *)
Definition is_pow2 (a : Z) : bool := (0 <? a) && (a =? 2 ^ Z.log2 a).

(** A block of memory: base address and length in bytes. *)
Definition block : Type := (ptr * Z)%type.

(** Two blocks share no byte. *)
Definition disjoint (b1 b2 : block) : Prop :=
  fst b1 + snd b1 <= fst b2 \/ fst b2 + snd b2 <= fst b1.

End Machine.
Import Machine.

(** ** The host: the runtime that provides [_aligned_malloc]

    [void* _aligned_malloc(size_t size, size_t alignment);]

    The host owns a state (its heap and whatever else the runtime keeps);
    a call takes the two arguments and the state, and either returns a
    pointer with the new state, or does not return ([None]: the runtime
    terminated the process or hung).  [live], [avail] and [heap_ok] are
    observations of the host state used to state the host's contract: the
    blocks allocated and not released, the bytes still available, and the
    well-formedness of the state. *)

Record Host : Type := {
  heap : Type;
  _aligned_malloc : size_t -> size_t -> heap -> option (ptr * heap);
  live : heap -> list block;
  avail : heap -> Z;
  heap_ok : heap -> Prop
}.

(** ** The monad of C effects *)

Definition addr : Type := Z.
Definition lock_id : Type := Z.

(** What a C function of this translation unit could do besides computing:
    call the external function, write a program variable, take or release a
    lock.  The index is the type of the answer. *)
Inductive effect : Type -> Type :=
| aligned_malloc (size alignment : size_t) : effect ptr
| store (a : addr) (v : Z) : effect unit
| acquire (l : lock_id) : effect unit
| release (l : lock_id) : effect unit.

(** The record of an effect in a trace. *)
Inductive event : Type :=
| EvAlignedMalloc (size alignment : size_t)
| EvStore (a : addr) (v : Z)
| EvAcquire (l : lock_id)
| EvRelease (l : lock_id).

Definition event_of {X : Type} (e : effect X) : event :=
  match e with
  | aligned_malloc size alignment => EvAlignedMalloc size alignment
  | store a v => EvStore a v
  | acquire l => EvAcquire l
  | release l => EvRelease l
  end.

Definition is_host_call (ev : event) : bool :=
  match ev with
  | EvAlignedMalloc _ _ => true
  | _ => false
  end.

(** Computations: return a value, or perform an effect and go on with its
    answer. *)
Inductive C (A : Type) : Type :=
| Ret (a : A)
| Do {X : Type} (e : effect X) (k : X -> C A).
Arguments Ret {A} a.
Arguments Do {A X} e k.

Fixpoint bind {A B : Type} (m : C A) (f : A -> C B) : C B :=
  match m with
  | Ret a => f a
  | Do e k => Do e (fun x => bind (k x) f)
  end.

Definition call {X : Type} (e : effect X) : C X := Do e Ret.

Declare Scope C_scope.
Delimit Scope C_scope with C.
Notation "x <- m ;; k" := (bind m (fun x => k))
  (at level 61, m at next level, right associativity) : C_scope.

(** ** The stub

[[
void* _aligned_malloc(size_t size, size_t alignment);

__declspec(dllexport) void* sys_alloc_aligned(size_t size, size_t alignment) {
    return _aligned_malloc(size, alignment);
}
]] *)

Definition sys_alloc_aligned (size alignment : size_t) : C ptr :=
  call (aligned_malloc size alignment).

(** ** Running a computation against a host *)

Section Run.

Variable H : Host.

(** The state of the process: the host's state, and the part that belongs
    to the program (its variables and the locks it holds). *)
Record World : Type := {
  host : heap H;
  globals : addr -> Z;
  locks : list lock_id
}.

Definition set_host (h : heap H) (w : World) : World :=
  {| host := h; globals := globals w; locks := locks w |}.

Definition upd (g : addr -> Z) (a : addr) (v : Z) : addr -> Z :=
  fun a' => if a' =? a then v else g a'.

(** One effect: its answer and the world after it, [None] when it does
    not return. *)
Definition step {X : Type} (e : effect X) (w : World) : option (X * World) :=
  match e in effect T return option (T * World) with
  | aligned_malloc size alignment =>
      match _aligned_malloc H size alignment (host w) with
      | Some (p, h') => Some (p, set_host h' w)
      | None => None
      end
  | store a v =>
      Some (tt, {| host := host w; globals := upd (globals w) a v;
                   locks := locks w |})
  | acquire l =>
      if existsb (Z.eqb l) (locks w) then None
      else Some (tt, {| host := host w; globals := globals w;
                        locks := l :: locks w |})
  | release l =>
      Some (tt, {| host := host w; globals := globals w;
                   locks := filter (fun l' => negb (l' =? l)) (locks w) |})
  end.

(** A run: the trace of the effects asked for, in order, and the outcome,
    [None] when an effect did not return. *)
Fixpoint exec {A : Type} (m : C A) (w : World)
  : list event * option (A * World) :=
  match m with
  | Ret a => ([], Some (a, w))
  | Do e k =>
      match step e w with
      | None => ([event_of e], None)
      | Some (x, w') =>
          let (t, r) := exec (k x) w' in (event_of e :: t, r)
      end
  end.

Definition trace {A : Type} (m : C A) (w : World) : list event :=
  fst (exec m w).
Definition outcome {A : Type} (m : C A) (w : World) : option (A * World) :=
  snd (exec m w).
Definition result {A : Type} (m : C A) (w : World) : option A :=
  option_map fst (outcome m w).

(** Number of calls to the host made by a run. *)
Definition host_calls {A : Type} (m : C A) (w : World) : nat :=
  length (filter is_host_call (trace m w)).

End Run.

Arguments host {H} w.
Arguments globals {H} w.
Arguments locks {H} w.
Arguments set_host {H} h w.
Arguments step {H X} e w.
Arguments exec {H A} m w.
Arguments trace {H A} m w.
Arguments outcome {H A} m w.
Arguments result {H A} m w.
Arguments host_calls {H A} m w.

(** ** What the host promises

    The source declares [_aligned_malloc] and does not define it: its body
    is the MSVC runtime's.  What the stub's callers are told about the
    result (an address divisible by the alignment, a block of its own, a
    null pointer on exhaustion) is therefore a promise of the host.  Each
    promise is a predicate on a [Host]; the theorems about the stub name
    the ones they rest on, and [Bump.host] below keeps them all. *)

Section Contract.

Variable H : Host.

(** Modelled from the spec: the body of [_aligned_malloc] is missing from
    the source; the host's heap is its own responsibility and stays
    consistent: a well-formed host state stays well-formed across a call. *)
Definition host_keeps_ok : Prop :=
  forall size alignment h p h',
    heap_ok H h ->
    _aligned_malloc H size alignment h = Some (p, h') ->
    heap_ok H h'.

(** Modelled from the spec: the body of [_aligned_malloc] is missing from
    the source; for a successful result the address is divisible by the
    alignment, the alignment being a power of two. *)
Definition host_aligned : Prop :=
  forall size alignment h p h',
    heap_ok H h ->
    is_pow2 alignment = true ->
    _aligned_malloc H size alignment h = Some (p, h') ->
    p <> NULL ->
    p mod alignment = 0.

(** Modelled from the spec: the body of [_aligned_malloc] is missing from
    the source; a successful result is the address of a block of at least
    [size] bytes that overlaps no memory already allocated and not yet
    released, and no pointer is returned twice while the first is live.
    The new block becomes live and the blocks that were live stay live. *)
Definition host_fresh : Prop :=
  forall size alignment h p h',
    heap_ok H h ->
    _aligned_malloc H size alignment h = Some (p, h') ->
    p <> NULL ->
    exists len,
      size <= len /\
      live H h' = (p, len) :: live H h /\
      forall b, In b (live H h) -> disjoint (p, len) b /\ fst b <> p.

(** Modelled from the spec: the body of [_aligned_malloc] is missing from
    the source; the host signals exhaustion by a null result: a request for
    more bytes than it has left fails with [NULL]. *)
Definition host_exhaustion : Prop :=
  forall size alignment h,
    heap_ok H h ->
    avail H h < size ->
    exists h', _aligned_malloc H size alignment h = Some (NULL, h').

End Contract.

(** ** A reference host

    A bump allocator over the addresses from [next] up to [limit], which
    never releases.  It rejects an alignment that is not a power of two and
    a size that is not a [size_t] by returning [NULL], and it gives a
    request of zero bytes an address of its own.  It shows that the promises
    above can be kept together, and serves to run the stub. *)

Module Bump.

Record state : Type := {
  next : Z;
  limit : Z;
  blocks : list block
}.

(** The least multiple of [a] that is at least [n]. *)
Definition align_up (n a : Z) : Z := (n + a - 1) / a * a.

Definition malloc (size alignment : size_t) (h : state)
  : option (ptr * state) :=
  if negb (is_pow2 alignment) || negb (is_size_t size) then Some (NULL, h)
  else
    let p := align_up (next h) alignment in
    let e := p + Z.max size 1 in
    if e <=? limit h
    then Some (p, {| next := e; limit := limit h;
                     blocks := (p, size) :: blocks h |})
    else Some (NULL, h).

Definition block_ok (n : Z) (b : block) : Prop :=
  0 < fst b /\ 0 <= snd b /\ fst b + snd b <= n /\ fst b < n.

Definition ok (h : state) : Prop :=
  0 < next h /\ Forall (block_ok (next h)) (blocks h).

Definition host : Host := {|
  heap := state;
  _aligned_malloc := malloc;
  live := blocks;
  avail := fun h => limit h - next h;
  heap_ok := ok
|}.

(** An empty heap over the addresses 1 .. 2^20. *)
Definition empty : state := {| next := 1; limit := 2 ^ 20; blocks := [] |}.

End Bump.

(** ** The contract of the boundary, in the words of its specification

    [allocate_aligned(size, alignment) -> handle-or-failure]: delegates to
    the host's aligned-allocation primitive with the given pair and returns
    exactly what the primitive returns.  Stated on the host state alone. *)

Module Spec.

Definition allocate_aligned (H : Host) (size alignment : size_t)
    (h : heap H) : option (ptr * heap H) :=
  _aligned_malloc H size alignment h.

End Spec.

(** An answer of the host, seen from the process: the pointer, and the
    world with the host's new state and nothing else changed. *)
Definition in_world {H : Host} (w : World H) (r : option (ptr * heap H))
  : option (ptr * World H) :=
  option_map (fun r => (fst r, set_host (snd r) w)) r.

(** Two requests in a row for the same pair. *)
Definition alloc_twice (size alignment : size_t) : C (ptr * ptr) :=
  (p1 <- sys_alloc_aligned size alignment ;;
   p2 <- sys_alloc_aligned size alignment ;;
   Ret (p1, p2))%C.

(** Whether a run, or a call of the host, came back. *)
Definition returned {A : Type} (o : option A) : bool :=
  match o with
  | Some _ => true
  | None => false
  end.

(** A boundary that checked the alignment itself would run differently from
    the stub on an alignment that is not a power of two: it would not reach
    the host.  This variant is not in the source; it is what the stub is
    compared with to see that its trace records the absence of a check. *)

Definition checking_variant (size alignment : size_t) : C ptr :=
  if is_pow2 alignment then sys_alloc_aligned size alignment else Ret NULL.

(** ** Worlds used to run the stub on the reference host *)

Definition w0 : World Bump.host :=
  Build_World Bump.host Bump.empty (fun _ => 0) [].

(** A world in which the program already has a variable set and a lock
    taken, over a larger heap. *)
Definition w_busy : World Bump.host :=
  Build_World Bump.host
    {| Bump.next := 1; Bump.limit := 2 ^ 30; Bump.blocks := [] |}
    (fun a => if a =? 100 then 7 else 0)
    [3].

(** The world after the two requests of the first scenario. *)
Definition w0_after_64_8 : World Bump.host :=
  Build_World Bump.host
    {| Bump.next := 72; Bump.limit := 2 ^ 20; Bump.blocks := [(8, 64)] |}
    (globals w0) (locks w0).

Definition w0_after_twice : World Bump.host :=
  Build_World Bump.host
    {| Bump.next := 136; Bump.limit := 2 ^ 20;
       Bump.blocks := [(72, 64); (8, 64)] |}
    (globals w0) (locks w0).

(** The world [w_busy] after a request of 64 bytes aligned to 8. *)
Definition w_busy_after_64_8 : World Bump.host :=
  Build_World Bump.host
    {| Bump.next := 72; Bump.limit := 2 ^ 30; Bump.blocks := [(8, 64)] |}
    (globals w_busy) (locks w_busy).

(** ** Callers: the stub in sequence and among other effects

    The stub's only caller is the guest runtime, which is not in the
    source.  What follows are the ways a caller can combine the stub with
    itself and with its own effects, built from [sys_alloc_aligned] and the
    monad alone. *)

(** A request: the size and the alignment, in the order of the stub's
    parameters. *)
Definition request : Type := (size_t * size_t)%type.

Definition req_event (r : request) : event :=
  EvAlignedMalloc (fst r) (snd r).

(** The stub called once for each request, in order; the pointers, in
    order. *)
Fixpoint alloc_all (reqs : list request) : C (list ptr) :=
  match reqs with
  | [] => Ret []
  | r :: rs =>
      (p <- sys_alloc_aligned (fst r) (snd r) ;;
       ps <- alloc_all rs ;;
       Ret (p :: ps))%C
  end.

(** The host primitive called directly once for each request, in order, on
    the host state alone: what a caller linked against the host without the
    stub in between would run. *)
Fixpoint host_all (H : Host) (reqs : list request) (h : heap H)
  : option (list ptr * heap H) :=
  match reqs with
  | [] => Some ([], h)
  | r :: rs =>
      match _aligned_malloc H (fst r) (snd r) h with
      | None => None
      | Some (p, h') =>
          option_map (fun o => (p :: fst o, snd o)) (host_all H rs h')
      end
  end.

(** A computation that never calls the host. *)
Inductive host_free {A : Type} : C A -> Prop :=
| host_free_Ret (a : A) : host_free (Ret a)
| host_free_Do {X : Type} (e : effect X) (k : X -> C A) :
    is_host_call (event_of e) = false ->
    (forall x, host_free (k x)) ->
    host_free (Do e k).

(** A caller's computation [m] before the stub, and after it. *)
Definition before_stub {A : Type} (m : C A) (size alignment : size_t)
  : C (A * ptr) :=
  (x <- m ;; p <- sys_alloc_aligned size alignment ;; Ret (x, p))%C.

Definition after_stub {A : Type} (m : C A) (size alignment : size_t)
  : C (A * ptr) :=
  (p <- sys_alloc_aligned size alignment ;; x <- m ;; Ret (x, p))%C.

(** * Facts *)

(** ** Facts about the machine types *)

Lemma is_pow2_pos (a : Z) : is_pow2 a = true -> 0 < a.
Proof.
  unfold is_pow2. intros Hp.
  apply andb_true_iff in Hp. destruct Hp as [Hpos _].
  now apply Z.ltb_lt in Hpos.
Qed.

Lemma is_pow2_spec (a : Z) :
  is_pow2 a = true <-> exists k, 0 <= k /\ a = 2 ^ k.
Proof.
  unfold is_pow2. split.
  - intros Hp. apply andb_true_iff in Hp. destruct Hp as [_ Heq].
    apply Z.eqb_eq in Heq.
    exists (Z.log2 a). split; [apply Z.log2_nonneg | exact Heq].
  - intros [k [Hk ->]].
    apply andb_true_iff. split.
    + apply Z.ltb_lt. apply Z.pow_pos_nonneg; lia.
    + apply Z.eqb_eq. now rewrite Z.log2_pow2.
Qed.

Lemma disjoint_sym (b1 b2 : block) : disjoint b1 b2 -> disjoint b2 b1.
Proof. unfold disjoint. tauto. Qed.

Lemma disjoint_shrink (p1 p2 l1 l2 m1 m2 : Z) :
  m1 <= l1 -> m2 <= l2 ->
  disjoint (p1, l1) (p2, l2) -> disjoint (p1, m1) (p2, m2).
Proof. unfold disjoint; simpl. lia. Qed.

(** ** The reference host keeps the promises *)

Lemma align_up_multiple (n a : Z) : 0 < a -> Bump.align_up n a mod a = 0.
Proof.
  intros Ha. unfold Bump.align_up. apply Z.mod_mul. lia.
Qed.

Lemma align_up_ge (n a : Z) : 0 < a -> n <= Bump.align_up n a.
Proof.
  intros Ha. unfold Bump.align_up.
  pose proof (Z.div_mod (n + a - 1) a ltac:(lia)) as Hdm.
  pose proof (Z.mod_pos_bound (n + a - 1) a Ha) as Hb.
  lia.
Qed.

(** Case analysis on a call to the reference host: it failed and left the
    state alone, or it cut a block at the aligned address. *)
Lemma bump_malloc_cases (size alignment : size_t) (h : Bump.state) p h' :
  Bump.malloc size alignment h = Some (p, h') ->
  (p = NULL /\ h' = h) \/
  (is_pow2 alignment = true /\ is_size_t size = true /\
   p = Bump.align_up (Bump.next h) alignment /\
   p + Z.max size 1 <= Bump.limit h /\
   h' = {| Bump.next := p + Z.max size 1; Bump.limit := Bump.limit h;
           Bump.blocks := (p, size) :: Bump.blocks h |}).
Proof.
  unfold Bump.malloc.
  destruct (is_pow2 alignment) eqn:Hp; simpl.
  2: { intros [= <- <-]. now left. }
  destruct (is_size_t size) eqn:Hs; simpl.
  2: { intros [= <- <-]. now left. }
  destruct (_ <=? _) eqn:Hfit.
  - intros [= <- <-]. right. apply Z.leb_le in Hfit. repeat split; auto.
  - intros [= <- <-]. now left.
Qed.

Lemma block_ok_mono (n m : Z) (b : block) :
  n <= m -> Bump.block_ok n b -> Bump.block_ok m b.
Proof. unfold Bump.block_ok. lia. Qed.

Lemma bump_keeps_ok : host_keeps_ok Bump.host.
Proof.
  intros size alignment h p h' [Hn Hbs] Hcall. simpl in *.
  apply bump_malloc_cases in Hcall.
  destruct Hcall as [[_ ->] | (Hp & Hs & Hpe & Hfit & ->)].
  - now split.
  - apply is_pow2_pos in Hp.
    pose proof (align_up_ge (Bump.next h) alignment Hp) as Hge.
    unfold is_size_t in Hs. apply andb_true_iff in Hs.
    destruct Hs as [Hs0 _]. apply Z.leb_le in Hs0.
    rewrite <- Hpe in Hge.
    split; simpl; [lia |].
    constructor.
    + unfold Bump.block_ok; simpl. lia.
    + eapply Forall_impl; [| exact Hbs].
      intros b. apply block_ok_mono. lia.
Qed.

Lemma bump_aligned : host_aligned Bump.host.
Proof.
  intros size alignment h p h' _ Hp Hcall Hnn. simpl in *.
  apply bump_malloc_cases in Hcall.
  destruct Hcall as [[-> _] | (_ & _ & -> & _)]; [contradiction |].
  apply align_up_multiple. now apply is_pow2_pos.
Qed.

Lemma bump_fresh : host_fresh Bump.host.
Proof.
  intros size alignment h p h' [Hn Hbs] Hcall Hnn. simpl in *.
  apply bump_malloc_cases in Hcall.
  destruct Hcall as [[-> _] | (Hp & _ & Hpe & _ & ->)]; [contradiction |].
  apply is_pow2_pos in Hp.
  pose proof (align_up_ge (Bump.next h) alignment Hp) as Hge.
  rewrite <- Hpe in Hge.
  exists size. split; [lia |]. split; [reflexivity |].
  intros b Hb. rewrite Forall_forall in Hbs.
  destruct (Hbs b Hb) as (_ & _ & Hend & Hlt).
  unfold disjoint; simpl. lia.
Qed.

Lemma bump_exhaustion : host_exhaustion Bump.host.
Proof.
  intros size alignment h _ Hav. simpl in *.
  exists h. unfold Bump.malloc.
  destruct (is_pow2 alignment) eqn:Hp; simpl; [| reflexivity].
  destruct (is_size_t size); simpl; [| reflexivity].
  apply is_pow2_pos in Hp.
  pose proof (align_up_ge (Bump.next h) alignment Hp) as Hge.
  destruct (_ <=? _) eqn:Hfit; [| reflexivity].
  apply Z.leb_le in Hfit. lia.
Qed.

Lemma bump_empty_ok : Bump.ok Bump.empty.
Proof. split; simpl; [lia | constructor]. Qed.

(** ** Runs of the stub *)

Section StubRuns.

Variable H : Host.
Implicit Types (size alignment : size_t) (w : World H) (p : ptr).

(** The run of the stub, computed once and for all. *)
Lemma exec_sys_alloc_aligned size alignment w :
  exec (sys_alloc_aligned size alignment) w =
  ([EvAlignedMalloc size alignment],
   in_world w (_aligned_malloc H size alignment (host w))).
Proof.
  unfold sys_alloc_aligned, call, in_world. simpl.
  destruct (_aligned_malloc H size alignment (host w)) as [[p h'] |];
    reflexivity.
Qed.

Lemma trace_sys_alloc_aligned size alignment w :
  trace (sys_alloc_aligned size alignment) w =
  [EvAlignedMalloc size alignment].
Proof. unfold trace. now rewrite exec_sys_alloc_aligned. Qed.

Lemma outcome_sys_alloc_aligned size alignment w :
  outcome (sys_alloc_aligned size alignment) w =
  in_world w (_aligned_malloc H size alignment (host w)).
Proof. unfold outcome. now rewrite exec_sys_alloc_aligned. Qed.

(** A run of the stub that returned is a call of the host that returned
    the same pointer, and the new world differs in the host state only. *)
Lemma outcome_sys_alloc_aligned_inv size alignment w p w' :
  outcome (sys_alloc_aligned size alignment) w = Some (p, w') ->
  exists h',
    _aligned_malloc H size alignment (host w) = Some (p, h') /\
    w' = set_host h' w.
Proof.
  rewrite outcome_sys_alloc_aligned. unfold in_world.
  destruct (_aligned_malloc H size alignment (host w)) as [[q h'] |];
    simpl; [| discriminate].
  intros [= <- <-]. now exists h'.
Qed.

(** Sequencing: the run of [bind m f] is the run of [m] followed by the
    run of [f] on its answer, and stops where [m] stops. *)
Lemma exec_bind {A B : Type} (m : C A) (f : A -> C B) w :
  exec (bind m f) w =
  match exec m w with
  | (t, None) => (t, None)
  | (t, Some (a, w')) => let (t', r) := exec (f a) w' in (t ++ t', r)
  end.
Proof.
  revert w. induction m as [a | X e k IH]; intros w; simpl.
  - now destruct (exec (f a) w).
  - destruct (step e w) as [[x w'] |]; [| reflexivity].
    rewrite IH.
    destruct (exec (k x) w') as [t [[a w''] |]]; [| reflexivity].
    now destruct (exec (f a) w'').
Qed.

Lemma outcome_alloc_twice_inv size alignment w p1 p2 w2 :
  outcome (alloc_twice size alignment) w = Some ((p1, p2), w2) ->
  exists w1,
    outcome (sys_alloc_aligned size alignment) w = Some (p1, w1) /\
    outcome (sys_alloc_aligned size alignment) w1 = Some (p2, w2).
Proof.
  unfold alloc_twice, outcome. rewrite exec_bind.
  destruct (exec (sys_alloc_aligned size alignment) w)
    as [t [[q1 w1] |]] eqn:E1; [| discriminate].
  rewrite exec_bind.
  destruct (exec (sys_alloc_aligned size alignment) w1)
    as [t' [[q2 w2'] |]] eqn:E2; [| discriminate].
  intros Heq. simpl in Heq. injection Heq as <- <- <-.
  exists w1. rewrite E2. split; reflexivity.
Qed.

End StubRuns.

(** The scenarios of the specification, on the reference host. *)

Example scenario_64_8 :
  result (sys_alloc_aligned 64 8) w0 = Some 8.
Proof. reflexivity. Qed.

Example scenario_4096_4096 :
  result (sys_alloc_aligned 4096 4096) w0 = Some 4096.
Proof. reflexivity. Qed.

Example scenario_absurd_size :
  result (sys_alloc_aligned SIZE_MAX 8) w0 = Some NULL.
Proof. reflexivity. Qed.

Example scenario_twice :
  result (alloc_twice 64 8) w0 = Some (8, 72).
Proof. reflexivity. Qed.

(** The monad can tell a computation that writes a variable or takes a lock
    from one that does not. *)

Example store_changes_globals :
  option_map (fun r => globals (snd r) 100) (outcome (call (store 100 1)) w0)
  = Some 1.
Proof. reflexivity. Qed.

Example acquire_changes_locks :
  option_map (fun r => locks (snd r)) (outcome (call (acquire 5)) w0)
  = Some [5].
Proof. reflexivity. Qed.


Example checking_variant_skips_host :
  is_pow2 3 = false /\
  3 mod pointer_size <> 0 /\
  trace (checking_variant 64 3) w0 = [] /\
  trace (sys_alloc_aligned 64 3) w0 = [EvAlignedMalloc 64 3].
Proof. repeat split; try reflexivity. discriminate. Qed.

(** * The claims *)

(** C1.  For every [(size, alignment)] with [alignment] a power of two, a
    non-null pointer returned by [sys_alloc_aligned size alignment] is
    divisible by [alignment].  The pointer is the host's; that the host
    places an allocated block at a multiple of a power-of-two alignment is
    the promise [host_aligned] of [_aligned_malloc]. *)
Theorem sys_alloc_aligned_result_aligned
    (H : Host) (Haligned : host_aligned H)
    (size alignment : size_t) (w : World H) (p : ptr) (w' : World H) :
  heap_ok H (host w) ->
  is_pow2 alignment = true ->
  outcome (sys_alloc_aligned size alignment) w = Some (p, w') ->
  p <> NULL ->
  p mod alignment = 0.
Proof.
  intros Hok Hpow Hrun Hnn.
  apply outcome_sys_alloc_aligned_inv in Hrun.
  destruct Hrun as (h' & Hcall & _).
  exact (Haligned size alignment (host w) p h' Hok Hpow Hcall Hnn).
Qed.

Lemma sys_alloc_aligned_result_aligned_witness :
  is_pow2 8 = true /\
  outcome (sys_alloc_aligned 64 8) w0 = Some (8, w0_after_64_8) /\
  8 mod 8 = 0.
Proof.
  split; [reflexivity |]. split; [reflexivity |].
  apply (sys_alloc_aligned_result_aligned
           Bump.host bump_aligned 64 8 w0 8 w0_after_64_8).
  - exact bump_empty_ok.
  - reflexivity.
  - reflexivity.
  - discriminate.
Defined.

(** C2.  For every [(size, alignment)], a run of
    [sys_alloc_aligned size alignment] is exactly one call of
    [_aligned_malloc] with the same two arguments, and its outcome is the
    answer of that call, untouched: same pointer, the host state the call
    left, nothing else changed.  Seen on the host state, the stub is the
    [allocate_aligned] of the specification. *)
Theorem sys_alloc_aligned_is_aligned_malloc
    (H : Host) (size alignment : size_t) (w : World H) :
  exec (sys_alloc_aligned size alignment) w =
    ([EvAlignedMalloc size alignment],
     in_world w (_aligned_malloc H size alignment (host w))) /\
  option_map (fun r => (fst r, host (snd r)))
             (outcome (sys_alloc_aligned size alignment) w) =
    Spec.allocate_aligned H size alignment (host w).
Proof.
  split.
  - apply exec_sys_alloc_aligned.
  - rewrite outcome_sys_alloc_aligned. unfold in_world, Spec.allocate_aligned.
    destruct (_aligned_malloc H size alignment (host w)) as [[p h'] |];
      reflexivity.
Qed.

(** C3.  A failure of [sys_alloc_aligned] is a null return value and
    nothing else.  When the host fails, that is [_aligned_malloc] returns
    [NULL], the run of the stub returns that [NULL]: it comes back (no
    abort), its trace is the one call of the host (no second attempt, no
    other effect such as writing a log), and the world is the one the host
    left.  And the stub returns [NULL] only when the host did. *)
Theorem sys_alloc_aligned_failure_verbatim
    (H : Host) (size alignment : size_t) (w : World H) :
  (forall h',
     _aligned_malloc H size alignment (host w) = Some (NULL, h') ->
     exec (sys_alloc_aligned size alignment) w =
       ([EvAlignedMalloc size alignment], Some (NULL, set_host h' w))) /\
  (forall w',
     outcome (sys_alloc_aligned size alignment) w = Some (NULL, w') ->
     exists h',
       _aligned_malloc H size alignment (host w) = Some (NULL, h') /\
       w' = set_host h' w) /\
  host_calls (sys_alloc_aligned size alignment) w = 1%nat.
Proof.
  split; [| split].
  - intros h' Hfail. rewrite exec_sys_alloc_aligned, Hfail. reflexivity.
  - intros w' Hrun. now apply outcome_sys_alloc_aligned_inv.
  - unfold host_calls. now rewrite trace_sys_alloc_aligned.
Qed.

Lemma sys_alloc_aligned_failure_verbatim_witness :
  _aligned_malloc Bump.host SIZE_MAX 8 (host w0) = Some (NULL, Bump.empty) /\
  exec (sys_alloc_aligned SIZE_MAX 8) w0 =
    ([EvAlignedMalloc SIZE_MAX 8], Some (NULL, w0)) /\
  exists h',
    _aligned_malloc Bump.host SIZE_MAX 8 (host w0) = Some (NULL, h') /\
    w0 = set_host h' w0.
Proof.
  destruct (sys_alloc_aligned_failure_verbatim Bump.host SIZE_MAX 8 w0)
    as (Hfwd & Hback & _).
  split; [reflexivity |]. split.
  - apply (Hfwd Bump.empty). reflexivity.
  - apply (Hback w0). reflexivity.
Defined.

(** C4.  [sys_alloc_aligned] does not check the alignment: for every value
    of [alignment], a power of two or not, a multiple of the pointer size
    or not, the host is called with that very value, and the stub's result
    is the host's; the stub neither rejects nor repairs it. *)
Theorem sys_alloc_aligned_forwards_alignment
    (H : Host) (size alignment : size_t) (w : World H) :
  trace (sys_alloc_aligned size alignment) w =
    [EvAlignedMalloc size alignment] /\
  result (sys_alloc_aligned size alignment) w =
    option_map fst (_aligned_malloc H size alignment (host w)).
Proof.
  split.
  - apply trace_sys_alloc_aligned.
  - unfold result. rewrite outcome_sys_alloc_aligned. unfold in_world.
    destruct (_aligned_malloc H size alignment (host w)) as [[p h'] |];
      reflexivity.
Qed.

(** C5.  A request of zero bytes takes no path of its own: the host is
    called with size 0 and the given alignment, and the outcome of the run
    is what the host answers to that request. *)
Theorem sys_alloc_aligned_size_zero
    (H : Host) (alignment : size_t) (w : World H) :
  exec (sys_alloc_aligned 0 alignment) w =
    ([EvAlignedMalloc 0 alignment],
     in_world w (_aligned_malloc H 0 alignment (host w))).
Proof. apply exec_sys_alloc_aligned. Qed.

(** C6.  A request for more bytes than the host can give returns [NULL]:
    the run comes back, with the null pointer, after the one call of the
    host and with the program's part of the world as it was.  That the host
    answers such a request with [NULL] is the promise [host_exhaustion]. *)
Theorem sys_alloc_aligned_unsatisfiable
    (H : Host) (Hexhaustion : host_exhaustion H)
    (size alignment : size_t) (w : World H) :
  heap_ok H (host w) ->
  avail H (host w) < size ->
  exists w',
    exec (sys_alloc_aligned size alignment) w =
      ([EvAlignedMalloc size alignment], Some (NULL, w')) /\
    globals w' = globals w /\ locks w' = locks w.
Proof.
  intros Hok Hbig.
  destruct (Hexhaustion size alignment (host w) Hok Hbig) as [h' Hcall].
  exists (set_host h' w).
  rewrite exec_sys_alloc_aligned, Hcall. repeat split.
Qed.

Lemma sys_alloc_aligned_unsatisfiable_witness :
  avail Bump.host (host w0) < SIZE_MAX /\
  exists w',
    exec (sys_alloc_aligned SIZE_MAX 8) w0 =
      ([EvAlignedMalloc SIZE_MAX 8], Some (NULL, w')) /\
    globals w' = globals w0 /\ locks w' = locks w0.
Proof.
  split; [reflexivity |].
  apply (sys_alloc_aligned_unsatisfiable Bump.host bump_exhaustion
           SIZE_MAX 8 w0).
  - exact bump_empty_ok.
  - reflexivity.
Defined.

(** C7.  A non-null pointer returned by [sys_alloc_aligned size alignment]
    is the address of a live block of at least [size] bytes that shares no
    byte and no address with any block that was live before the call,
    whoever asked the host for it; and two requests in a row for the same
    pair, both answered with a non-null pointer, give two different
    pointers to two blocks that share no byte, both live.  That an
    allocated block is fresh is the promise [host_fresh] of the host. *)
Theorem sys_alloc_aligned_no_alias
    (H : Host) (Hkeeps : host_keeps_ok H) (Hfresh : host_fresh H)
    (size alignment : size_t) (w : World H) :
  heap_ok H (host w) ->
  (forall p w',
     outcome (sys_alloc_aligned size alignment) w = Some (p, w') ->
     p <> NULL ->
     exists len,
       size <= len /\
       In (p, len) (live H (host w')) /\
       forall b, In b (live H (host w)) ->
                 In b (live H (host w')) /\ disjoint (p, len) b /\ fst b <> p)
  /\
  (forall p1 p2 w2,
     outcome (alloc_twice size alignment) w = Some ((p1, p2), w2) ->
     p1 <> NULL -> p2 <> NULL ->
     p1 <> p2 /\
     disjoint (p1, size) (p2, size) /\
     exists len1 len2,
       size <= len1 /\ size <= len2 /\
       In (p1, len1) (live H (host w2)) /\
       In (p2, len2) (live H (host w2))).
Proof.
  intros Hok. split.
  - intros p w' Hrun Hnn.
    apply outcome_sys_alloc_aligned_inv in Hrun.
    destruct Hrun as (h' & Hcall & ->). simpl.
    destruct (Hfresh _ _ _ _ _ Hok Hcall Hnn) as (len & Hlen & Hlive & Hdis).
    exists len. rewrite Hlive. split; [exact Hlen |].
    split; [now left |].
    intros b Hb. split; [now right | now apply Hdis].
  - intros p1 p2 w2 Hrun Hnn1 Hnn2.
    apply outcome_alloc_twice_inv in Hrun.
    destruct Hrun as (w1 & Hrun1 & Hrun2).
    apply outcome_sys_alloc_aligned_inv in Hrun1.
    destruct Hrun1 as (h1 & Hcall1 & ->).
    apply outcome_sys_alloc_aligned_inv in Hrun2.
    destruct Hrun2 as (h2 & Hcall2 & ->). simpl in *.
    pose proof (Hkeeps _ _ _ _ _ Hok Hcall1) as Hok1.
    destruct (Hfresh _ _ _ _ _ Hok Hcall1 Hnn1)
      as (len1 & Hlen1 & Hlive1 & _).
    destruct (Hfresh _ _ _ _ _ Hok1 Hcall2 Hnn2)
      as (len2 & Hlen2 & Hlive2 & Hdis2).
    assert (Hin1 : In (p1, len1) (live H h1)) by (rewrite Hlive1; now left).
    destruct (Hdis2 _ Hin1) as [Hd Hne]. simpl in Hne.
    split; [exact Hne |]. split.
    + apply disjoint_sym.
      now apply (disjoint_shrink p2 p1 len2 len1 size size).
    + exists len1, len2. rewrite Hlive2.
      repeat split; [exact Hlen1 | exact Hlen2 | right; exact Hin1 | now left].
Qed.

Lemma sys_alloc_aligned_no_alias_witness :
  (exists len,
     64 <= len /\
     In (8, len) (live Bump.host (host w0_after_64_8)) /\
     forall b, In b (live Bump.host (host w0)) ->
               In b (live Bump.host (host w0_after_64_8)) /\
               disjoint (8, len) b /\ fst b <> 8) /\
  (8 <> 72 /\
   disjoint (8, 64) (72, 64) /\
   exists len1 len2,
     64 <= len1 /\ 64 <= len2 /\
     In (8, len1) (live Bump.host (host w0_after_twice)) /\
     In (72, len2) (live Bump.host (host w0_after_twice))).
Proof.
  destruct (sys_alloc_aligned_no_alias Bump.host bump_keeps_ok bump_fresh
              64 8 w0 bump_empty_ok) as [Hone Htwo].
  split.
  - apply (Hone 8 w0_after_64_8); [reflexivity | discriminate].
  - apply (Htwo 8 72 w0_after_twice);
      [reflexivity | discriminate | discriminate].
Defined.

(** C8.  A run of [sys_alloc_aligned] that comes back has changed the
    host's state and nothing else: the program's variables and the locks it
    holds are as they were, and the only effect in the trace is the one
    call of the host (no store, no lock taken or released). *)
Theorem sys_alloc_aligned_frame
    (H : Host) (size alignment : size_t) (w : World H)
    (p : ptr) (w' : World H) :
  outcome (sys_alloc_aligned size alignment) w = Some (p, w') ->
  globals w' = globals w /\
  locks w' = locks w /\
  w' = set_host (host w') w /\
  trace (sys_alloc_aligned size alignment) w =
    [EvAlignedMalloc size alignment].
Proof.
  intros Hrun.
  apply outcome_sys_alloc_aligned_inv in Hrun.
  destruct Hrun as (h' & _ & ->).
  repeat split. apply trace_sys_alloc_aligned.
Qed.

Lemma sys_alloc_aligned_frame_witness :
  outcome (sys_alloc_aligned 64 8) w_busy = Some (8, w_busy_after_64_8) /\
  globals w_busy_after_64_8 100 = 7 /\
  locks w_busy_after_64_8 = [3] /\
  trace (sys_alloc_aligned 64 8) w_busy = [EvAlignedMalloc 64 8].
Proof.
  destruct (sys_alloc_aligned_frame Bump.host 64 8 w_busy 8 w_busy_after_64_8)
    as (Hg & Hl & _ & Ht); [reflexivity |].
  rewrite Hg, Hl.
  split; [reflexivity |]. split; [reflexivity |]. split; [reflexivity |].
  exact Ht.
Defined.

(** C9.  For every [(size, alignment)] the run of [sys_alloc_aligned] is
    one step long and that step is a call of the host: one call, no more,
    and the run comes back exactly when the call does. *)
Theorem sys_alloc_aligned_terminates
    (H : Host) (size alignment : size_t) (w : World H) :
  length (trace (sys_alloc_aligned size alignment) w) = 1%nat /\
  host_calls (sys_alloc_aligned size alignment) w = 1%nat /\
  returned (outcome (sys_alloc_aligned size alignment) w) =
    returned (_aligned_malloc H size alignment (host w)).
Proof.
  unfold host_calls.
  rewrite trace_sys_alloc_aligned, outcome_sys_alloc_aligned.
  repeat split.
  now destruct (_aligned_malloc H size alignment (host w)) as [[p h'] |].
Qed.

(** C10.  The result of [sys_alloc_aligned] is a function of its two
    arguments and of the host's answer to them: two runs with the same
    [(size, alignment)], in any two worlds and over any two hosts, in which
    the host answers with the same pointer (or does not answer), have the
    same result. *)
Theorem sys_alloc_aligned_deterministic
    (H1 H2 : Host) (size alignment : size_t)
    (w1 : World H1) (w2 : World H2) :
  option_map fst (_aligned_malloc H1 size alignment (host w1)) =
    option_map fst (_aligned_malloc H2 size alignment (host w2)) ->
  result (sys_alloc_aligned size alignment) w1 =
    result (sys_alloc_aligned size alignment) w2.
Proof.
  intros Hsame. unfold result.
  rewrite !outcome_sys_alloc_aligned. unfold in_world.
  destruct (_aligned_malloc H1 size alignment (host w1)) as [[p1 h1] |];
    destruct (_aligned_malloc H2 size alignment (host w2)) as [[p2 h2] |];
    simpl in *; congruence.
Qed.

Lemma sys_alloc_aligned_deterministic_witness :
  host w0 <> host w_busy /\
  result (sys_alloc_aligned 64 8) w0 =
    result (sys_alloc_aligned 64 8) w_busy.
Proof.
  split; [discriminate |].
  apply (sys_alloc_aligned_deterministic Bump.host Bump.host 64 8 w0 w_busy).
  reflexivity.
Defined.

(** * The stub in sequence *)

Section Sequences.

Variable H : Host.
Implicit Types (w : World H) (reqs : list request) (ps : list ptr).

(** One unfolding of [alloc_all]: the first request goes to the host; if
    the host answers, the rest runs in the world it left. *)
Lemma exec_alloc_all_cons (r : request) reqs w :
  exec (alloc_all (r :: reqs)) w =
  match _aligned_malloc H (fst r) (snd r) (host w) with
  | None => ([req_event r], None)
  | Some (p, h') =>
      (req_event r :: trace (alloc_all reqs) (set_host h' w),
       option_map (fun o => (p :: fst o, snd o))
                  (outcome (alloc_all reqs) (set_host h' w)))
  end.
Proof.
  unfold trace, outcome. simpl.
  destruct (_aligned_malloc H (fst r) (snd r) (host w)) as [[p h'] |];
    [| reflexivity].
  rewrite exec_bind.
  destruct (exec (alloc_all reqs) (set_host h' w)) as [t [[ps w'] |]];
    simpl; [| reflexivity].
  now rewrite app_nil_r.
Qed.

(** A run of [alloc_all] that came back, taken apart at its first
    request. *)
Lemma outcome_alloc_all_cons_inv (r : request) reqs w psall w' :
  outcome (alloc_all (r :: reqs)) w = Some (psall, w') ->
  exists p h' ps,
    _aligned_malloc H (fst r) (snd r) (host w) = Some (p, h') /\
    outcome (alloc_all reqs) (set_host h' w) = Some (ps, w') /\
    psall = p :: ps /\
    trace (alloc_all (r :: reqs)) w =
      req_event r :: trace (alloc_all reqs) (set_host h' w).
Proof.
  unfold outcome at 1, trace at 1. rewrite exec_alloc_all_cons.
  destruct (_aligned_malloc H (fst r) (snd r) (host w)) as [[p h'] |];
    simpl; [| discriminate].
  destruct (outcome (alloc_all reqs) (set_host h' w)) as [[ps w1] |] eqn:E;
    simpl; [| discriminate].
  intros [= <- <-]. now exists p, h', ps.
Qed.

(** X1.  A run of the stub over a list of requests that comes back has
    called the host once per request, with the requests' own arguments and
    in their order, has returned one pointer per request, and has left the
    program's variables and locks as they were. *)
Theorem alloc_all_returns reqs w ps w' :
  outcome (alloc_all reqs) w = Some (ps, w') ->
  trace (alloc_all reqs) w = map req_event reqs /\
  length ps = length reqs /\
  host_calls (alloc_all reqs) w = length reqs /\
  globals w' = globals w /\
  locks w' = locks w.
Proof.
  revert w ps w'. induction reqs as [| r reqs IH]; intros w ps w' Hrun.
  - cbv in Hrun. injection Hrun as <- <-. repeat split.
  - apply outcome_alloc_all_cons_inv in Hrun.
    destruct Hrun as (p & h' & ps' & _ & Hrest & -> & Htr).
    destruct (IH _ _ _ Hrest) as (IHt & IHl & IHc & IHg & IHk).
    unfold host_calls in *. rewrite Htr, IHt in *. simpl.
    rewrite IHl, IHc. repeat split; assumption.
Qed.

(** X2.  Whether or not the host keeps answering, a run of the stub over a
    list of requests performs nothing but calls of the host, and these are
    the requests, in order, up to the one at which the run stopped: all of
    them when the run came back, at least the first when it did not. *)
Theorem alloc_all_trace_prefix reqs w :
  forallb is_host_call (trace (alloc_all reqs) w) = true /\
  trace (alloc_all reqs) w =
    map req_event (firstn (length (trace (alloc_all reqs) w)) reqs) /\
  if returned (outcome (alloc_all reqs) w)
  then length (trace (alloc_all reqs) w) = length reqs
  else (0 < length (trace (alloc_all reqs) w) <= length reqs)%nat.
Proof.
  revert w. induction reqs as [| r reqs IH]; intros w.
  - split; [reflexivity |]. split; reflexivity.
  - unfold trace, outcome in *. rewrite exec_alloc_all_cons.
    destruct (_aligned_malloc H (fst r) (snd r) (host w)) as [[p h'] |];
      simpl.
    + destruct (IH (set_host h' w)) as (IHa & IHp & IHn).
      unfold trace, outcome in *.
      split; [exact IHa |]. split; [now rewrite <- IHp |].
      destruct (snd (exec (alloc_all reqs) (set_host h' w)));
        simpl in *; lia.
    + repeat split; lia.
Qed.

End Sequences.

Lemma alloc_all_returns_witness :
  outcome (alloc_all [(64, 8); (SIZE_MAX, 8); (64, 8)]) w0 =
    Some ([8; NULL; 72], w0_after_twice) /\
  trace (alloc_all [(64, 8); (SIZE_MAX, 8); (64, 8)]) w0 =
    [EvAlignedMalloc 64 8; EvAlignedMalloc SIZE_MAX 8; EvAlignedMalloc 64 8] /\
  host_calls (alloc_all [(64, 8); (SIZE_MAX, 8); (64, 8)]) w0 = 3%nat /\
  globals w0_after_twice = globals w0 /\
  locks w0_after_twice = locks w0.
Proof.
  split; [reflexivity |].
  destruct (alloc_all_returns Bump.host [(64, 8); (SIZE_MAX, 8); (64, 8)]
              w0 [8; NULL; 72] w0_after_twice eq_refl)
    as (Ht & _ & Hc & Hg & Hl).
  split; [exact Ht |]. split; [exact Hc |]. split; [exact Hg | exact Hl].
Defined.

(** The host state stays well-formed along a run over a list of requests. *)
Lemma alloc_all_keeps_ok
    (H : Host) (Hkeeps : host_keeps_ok H)
    (reqs : list request) (w : World H) (ps : list ptr) (w' : World H) :
  heap_ok H (host w) ->
  outcome (alloc_all reqs) w = Some (ps, w') ->
  heap_ok H (host w').
Proof.
  revert w ps w'. induction reqs as [| r reqs IH]; intros w ps w' Hok Hrun.
  - cbv in Hrun. now injection Hrun as <- <-.
  - apply outcome_alloc_all_cons_inv in Hrun.
    destruct Hrun as (p & h' & ps' & Hcall & Hrest & -> & _).
    apply (IH (set_host h' w) _ _ (Hkeeps _ _ _ _ _ Hok Hcall) Hrest).
Qed.

(** X3.  When every request of a list was answered with a non-null
    pointer, the pointers are pairwise different and are the addresses of
    blocks, each with room for the size asked for, that are pairwise
    disjoint, disjoint from every block that was live before the run, and
    all live after it, on top of the blocks that were live before.  This
    rests on the host's promises [host_keeps_ok] and [host_fresh]. *)
Theorem alloc_all_no_alias
    (H : Host) (Hkeeps : host_keeps_ok H) (Hfresh : host_fresh H)
    (reqs : list request) (w : World H) (ps : list ptr) (w' : World H) :
  heap_ok H (host w) ->
  outcome (alloc_all reqs) w = Some (ps, w') ->
  Forall (fun p => p <> NULL) ps ->
  exists bs : list block,
    map fst bs = ps /\
    Forall2 (fun r b => fst r <= snd b) reqs bs /\
    live H (host w') = rev bs ++ live H (host w) /\
    NoDup ps /\
    ForallOrdPairs disjoint bs /\
    forall b c, In b (live H (host w)) -> In c bs ->
                disjoint c b /\ fst b <> fst c.
Proof.
  revert w ps w'.
  induction reqs as [| r reqs IH]; intros w ps w' Hok Hrun Hnn.
  - cbv in Hrun. injection Hrun as <- <-.
    exists []. split; [reflexivity |]. split; [constructor |].
    split; [reflexivity |]. split; [constructor |]. split; [constructor |].
    intros b c _ [].
  - apply outcome_alloc_all_cons_inv in Hrun.
    destruct Hrun as (p & h1 & ps' & Hcall & Hrest & -> & _).
    inversion Hnn as [| ? ? Hp Hps']; subst.
    destruct (Hfresh _ _ _ _ _ Hok Hcall Hp) as (len & Hlen & Hlive & Hold).
    pose proof (Hkeeps _ _ _ _ _ Hok Hcall) as Hok1.
    destruct (IH (set_host h1 w) ps' w' Hok1 Hrest Hps')
      as (bs & Hfst & Hsz & Hlive' & Hnd & Hpair & Hold').
    simpl in Hlive', Hold'. rewrite Hlive in Hlive', Hold'.
    assert (Hnew : forall c, In c bs ->
                     disjoint c (p, len) /\ p <> fst c).
    { intros c Hc. apply (Hold' (p, len) c); [now left | exact Hc]. }
    exists ((p, len) :: bs).
    split; [simpl; now rewrite Hfst |].
    split; [constructor; assumption |].
    split; [simpl; rewrite Hlive', <- app_assoc; reflexivity |].
    split; [| split].
    + constructor; [| exact Hnd].
      rewrite <- Hfst. intros Hin. apply in_map_iff in Hin.
      destruct Hin as (c & Hc & Hin).
      destruct (Hnew c Hin) as [_ Hne]. congruence.
    + constructor; [| exact Hpair].
      apply Forall_forall. intros c Hc.
      apply disjoint_sym. now apply Hnew.
    + intros b c Hb [<- | Hc].
      * now apply Hold.
      * apply (Hold' b c); [now right | exact Hc].
Qed.

Lemma alloc_all_no_alias_witness :
  outcome (alloc_all [(64, 8); (64, 8)]) w0 = Some ([8; 72], w0_after_twice) /\
  exists bs : list block,
    map fst bs = [8; 72] /\
    Forall2 (fun r b => fst r <= snd b) [(64, 8); (64, 8)] bs /\
    live Bump.host (host w0_after_twice) =
      rev bs ++ live Bump.host (host w0) /\
    NoDup [8; 72] /\
    ForallOrdPairs disjoint bs /\
    forall b c, In b (live Bump.host (host w0)) -> In c bs ->
                disjoint c b /\ fst b <> fst c.
Proof.
  split; [reflexivity |].
  apply (alloc_all_no_alias Bump.host bump_keeps_ok bump_fresh
           [(64, 8); (64, 8)] w0 [8; 72] w0_after_twice).
  - exact bump_empty_ok.
  - reflexivity.
  - repeat constructor; discriminate.
Defined.

(** X4.  Along a run over a list of requests, every pointer that is not
    null and was asked for with a power-of-two alignment is a multiple of
    the alignment of its own request, whatever the alignments of the
    requests around it.  This rests on the host's promises
    [host_keeps_ok] and [host_aligned]. *)
Theorem alloc_all_aligned
    (H : Host) (Hkeeps : host_keeps_ok H) (Haligned : host_aligned H)
    (reqs : list request) (w : World H) (ps : list ptr) (w' : World H) :
  heap_ok H (host w) ->
  outcome (alloc_all reqs) w = Some (ps, w') ->
  Forall2 (fun r p => is_pow2 (snd r) = true -> p <> NULL -> p mod snd r = 0)
          reqs ps.
Proof.
  revert w ps w'. induction reqs as [| r reqs IH]; intros w ps w' Hok Hrun.
  - cbv in Hrun. injection Hrun as <- <-. constructor.
  - apply outcome_alloc_all_cons_inv in Hrun.
    destruct Hrun as (p & h1 & ps' & Hcall & Hrest & -> & _).
    constructor.
    + intros Hpow Hp. exact (Haligned _ _ _ _ _ Hok Hpow Hcall Hp).
    + apply (IH (set_host h1 w) _ _ (Hkeeps _ _ _ _ _ Hok Hcall) Hrest).
Qed.

Lemma alloc_all_aligned_witness :
  outcome (alloc_all [(24, 16); (1, 4096); (0, 2)]) w0 =
    Some ([16; 4096; 4098],
          Build_World Bump.host
            {| Bump.next := 4099; Bump.limit := 2 ^ 20;
               Bump.blocks := [(4098, 0); (4096, 1); (16, 24)] |}
            (globals w0) (locks w0)) /\
  Forall2 (fun r p => is_pow2 (snd r) = true -> p <> NULL -> p mod snd r = 0)
          [(24, 16); (1, 4096); (0, 2)] [16; 4096; 4098].
Proof.
  split; [reflexivity |].
  eapply (alloc_all_aligned Bump.host bump_keeps_ok bump_aligned
            [(24, 16); (1, 4096); (0, 2)] w0).
  - exact bump_empty_ok.
  - reflexivity.
Defined.

(** * The stub among a caller's own effects *)

Section Independence.

Variable H : Host.
Implicit Types (w : World H).

Lemma set_host_host w : set_host (host w) w = w.
Proof. now destruct w. Qed.

(** The outcome of a sequence: the outcome of the second part in the world
    the first part left, nothing if the first part did not come back. *)
Lemma outcome_bind {A B : Type} (m : C A) (f : A -> C B) w :
  outcome (bind m f) w =
  match outcome m w with
  | None => None
  | Some (a, w') => outcome (f a) w'
  end.
Proof.
  unfold outcome. rewrite exec_bind.
  destruct (exec m w) as [t [[a w'] |]]; simpl; [| reflexivity].
  now destruct (exec (f a) w').
Qed.

(** An effect other than the call of the host does not look at the host
    state and carries it along. *)
Lemma step_host_free {X : Type} (e : effect X) w (h' : heap H) :
  is_host_call (event_of e) = false ->
  step e (set_host h' w) =
  option_map (fun r => (fst r, set_host h' (snd r))) (step e w).
Proof.
  destruct e; simpl; intros Hfree; try discriminate; try reflexivity.
  now destruct (existsb (Z.eqb l) (locks w)).
Qed.

Lemma outcome_host_free {A : Type} (m : C A) :
  host_free m ->
  forall w (h' : heap H),
    outcome m (set_host h' w) =
    option_map (fun r => (fst r, set_host h' (snd r))) (outcome m w).
Proof.
  unfold outcome.
  induction 1 as [a | X e k Hfree _ IH]; intros w h'; simpl.
  - reflexivity.
  - rewrite (step_host_free e w h' Hfree).
    destruct (step e w) as [[x w1] |]; simpl; [| reflexivity].
    specialize (IH x w1 h').
    destruct (exec (k x) (set_host h' w1)) as [t1 o1].
    destruct (exec (k x) w1) as [t2 o2]. exact IH.
Qed.

Lemma host_free_keeps_host {A : Type} (m : C A) w (a : A) (w' : World H) :
  host_free m ->
  outcome m w = Some (a, w') ->
  host w' = host w.
Proof.
  intros Hfree Hrun.
  pose proof (outcome_host_free m Hfree w (host w)) as Heq.
  rewrite set_host_host, Hrun in Heq. simpl in Heq.
  injection Heq as Heq. now rewrite Heq.
Qed.

(** X5.  The stub neither reads nor writes what belongs to the program: a
    computation of the caller that never calls the host (stores, locks)
    can run before the stub or after it, and the outcome is the same: the
    same pointer, the same answer of the caller's computation, the same
    final world, and no outcome in the one order exactly when there is
    none in the other. *)
Theorem sys_alloc_aligned_commutes
    {A : Type} (m : C A) (size alignment : size_t) w :
  host_free m ->
  outcome (before_stub m size alignment) w =
  outcome (after_stub m size alignment) w.
Proof.
  intros Hfree. unfold before_stub, after_stub.
  rewrite !outcome_bind, outcome_sys_alloc_aligned.
  destruct (outcome m w) as [[x w1] |] eqn:Hm.
  - rewrite outcome_bind, outcome_sys_alloc_aligned.
    rewrite (host_free_keeps_host m w x w1 Hfree Hm).
    destruct (_aligned_malloc H size alignment (host w)) as [[p h'] |];
      simpl; [| reflexivity].
    rewrite outcome_bind, (outcome_host_free m Hfree w h'), Hm.
    reflexivity.
  - destruct (_aligned_malloc H size alignment (host w)) as [[p h'] |];
      simpl; [| reflexivity].
    rewrite outcome_bind, (outcome_host_free m Hfree w h'), Hm.
    reflexivity.
Qed.

End Independence.

(** A caller's computation that sets a variable and takes and releases a
    lock. *)
Lemma host_free_set_and_lock :
  host_free (_ <- call (store 100 1) ;;
             _ <- call (acquire 5) ;;
             call (release 5))%C.
Proof.
  simpl. repeat (constructor; [reflexivity | intros []]). constructor.
Defined.

Lemma sys_alloc_aligned_commutes_witness :
  result (after_stub (_ <- call (store 100 1) ;;
                      _ <- call (acquire 5) ;;
                      call (release 5))%C 64 8) w_busy = Some (tt, 8) /\
  outcome (before_stub (_ <- call (store 100 1) ;;
                        _ <- call (acquire 5) ;;
                        call (release 5))%C 64 8) w_busy =
  outcome (after_stub (_ <- call (store 100 1) ;;
                       _ <- call (acquire 5) ;;
                       call (release 5))%C 64 8) w_busy.
Proof.
  split; [reflexivity |].
  apply (sys_alloc_aligned_commutes Bump.host _ 64 8 w_busy).
  exact host_free_set_and_lock.
Defined.

(** X6.  Running the stub over a list of requests is calling the host
    primitive directly for each of them in order: the same pointers, the
    same final host state, no outcome exactly when one of the host's calls
    did not return; a null answer in the middle neither stops the run nor
    changes what is asked next. *)
Theorem alloc_all_is_host_all
    (H : Host) (reqs : list request) (w : World H) :
  outcome (alloc_all reqs) w =
  option_map (fun o => (fst o, set_host (snd o) w))
             (host_all H reqs (host w)).
Proof.
  revert w. induction reqs as [| r reqs IH]; intros w.
  - now destruct w.
  - unfold outcome at 1. rewrite exec_alloc_all_cons. simpl.
    destruct (_aligned_malloc H (fst r) (snd r) (host w)) as [[p h'] |];
      simpl; [| reflexivity].
    rewrite IH. simpl.
    now destruct (host_all H reqs h') as [[ps h2] |].
Qed.
